(** * parse-args: the strict named-argument parser

    A shallow embedding of the two parsers of the repository,

    - [Full]    : [lib/named-simple.js], with the [--help] / [--version]
                  short-circuit and the optional leading command;
    - [Reduced] : the second source file, the same loop without them,

    followed by the properties their specification states.

    Conventions of the embedding.

    - A JS array of strings is a [list string].  The caller's [allArgs]
      array is a mutable object: every entry point returns, next to its
      completion, the contents of that array when the call ends.
    - The result object is a [gmap string value]; a property is a scalar
      string, an array of strings, or the boolean of a short-circuit.
    - [throw] is the [Throw] completion.  An [Error] is recorded with its
      [id], its [group] when the source sets one, and the values that its
      message template interpolates (the text itself goes through the
      external [tedent] formatter and is not rendered).
    - [camelcase] is the npm package of that name.  It is a parameter of
      the development; [camelcase_dashed] is a small model of it for the
      worked examples.  The package strips leading separators, so it never
      yields the key [__proto__], the one key for which a JS object does
      not behave as a finite map. *)

From Stdlib Require Import Ascii String.
From stdpp Require Import base gmap list strings.

Open Scope string_scope.
Open Scope list_scope.

(** ** Values, errors, completions *)

Inductive value : Type :=
| VBool (b : bool)
| VStr (s : string)
| VArr (xs : list string).

Abbreviation object := (gmap string value).

(** A value spliced into a message template. *)
Inductive hole : Type :=
| HStr (s : string)                 (* `${arg}` *)
| HJoin (sep : string) (xs : list string)  (* `${xs.join(sep)}` *)
| HJson (xs : list string).         (* `${JSON.stringify(xs, null, 2)}` *)

Record js_error : Type := mkError {
  err_id : string;
  err_group : option string;
  err_holes : list hole
}.

Inductive completion (A : Type) : Type :=
| Return (a : A)
| Throw (e : js_error).

Arguments Return {A} a.
Arguments Throw {A} e.

#[global] Instance value_eq_dec : EqDecision value.
Proof. solve_decision. Defined.

#[global] Instance hole_eq_dec : EqDecision hole.
Proof. solve_decision. Defined.

#[global] Instance js_error_eq_dec : EqDecision js_error.
Proof. solve_decision. Defined.

(** ** The camel-case converter *)

Definition upper_ascii (c : ascii) : ascii :=
  let n := nat_of_ascii c in
  if (97 <=? n)%nat && (n <=? 122)%nat then ascii_of_nat (n - 32) else c.

Fixpoint camel_segments (up : bool) (s : string) : string :=
  match s with
  | EmptyString => EmptyString
  | String c s' =>
      if Ascii.eqb c "-"%char then camel_segments true s'
      else String (if up then upper_ascii c else c) (camel_segments false s')
  end.

(** Modelled from the spec: the dash-to-camel-case converter is the external
    [camelcase] package, absent from the sources.  Following the spec's
    words: strip the leading [--], then turn the dash-separated segments
    into camelCase. *)
Definition camelcase_dashed (arg : string) : string :=
  match arg with
  | String "-" (String "-" name) => camel_segments false name
  | _ => camel_segments false arg
  end.

(** ** What both source files share

    [initResult] and the body of the [for] loop are the same text in the two
    files; the loop only differs in the two [throw...] helpers it calls. *)

Section Common.
Variable camelcase : string -> string.
Variables throwExpectedToBeNamed throwLastArgCannotBeNamed :
  string -> list string -> js_error.

(** [allowMultiple.reduce((res, arg) => { res[camelcase(arg)] = []; return res }, {})] *)
Definition initResult (allowMultiple : list string) : object :=
  foldl (fun res arg => <[camelcase arg := VArr []]> res) ∅ allowMultiple.

(** [if (Array.isArray(result[key])) result[key].push(val) else result[key] = val] *)
Definition assign (result : object) (key val : string) : object :=
  match result !! key with
  | Some (VArr xs) => <[key := VArr (xs ++ [val])]> result
  | _ => <[key := VStr val]> result
  end.

(** The [for] loop.  [rest] is what lies at and after the cursor [i]
    ([drop i allArgs]); [allArgs] itself is kept for the error messages.
    [i === allArgs.length - 1] is: nothing follows [arg].  One iteration
    reads [arg] at [i] and [val] at [i + 1], and the cursor moves by two. *)
Fixpoint loop (allArgs rest : list string) (result : object)
  : completion object :=
  match rest with
  | [] => Return result
  | arg :: rest' =>
      if negb (String.prefix "--" arg)
      then Throw (throwExpectedToBeNamed arg allArgs)
      else
        match rest' with
        | [] => Throw (throwLastArgCannotBeNamed arg allArgs)
        | val :: rest'' =>
            loop allArgs rest'' (assign result (camelcase arg) val)
        end
  end.

(** The same loop written with its cursor, statement by statement:
    [i < allArgs.length] is [allArgs !! i] being defined, and [fuel] bounds
    the number of iterations.  [None] is only for a missing iteration or a
    read past the end; [for_loop_is_loop] shows that neither happens and that
    [loop] is this loop. *)
Fixpoint for_loop (fuel : nat) (allArgs : list string) (i : nat)
  (result : object) : option (completion object) :=
  match fuel with
  | O => None
  | S fuel' =>
      match allArgs !! i with
      | None => Some (Return result)
      | Some arg =>
          if negb (String.prefix "--" arg)
          then Some (Throw (throwExpectedToBeNamed arg allArgs))
          else if decide (i = length allArgs - 1)
          then Some (Throw (throwLastArgCannotBeNamed arg allArgs))
          else
            match allArgs !! (i + 1) with
            | Some val =>
                for_loop fuel' allArgs (i + 1 + 1)
                  (assign result (camelcase arg) val)
            | None => None
            end
      end
  end.
End Common.

(** ** The reduced parser (no short-circuit, no command) *)

Module Reduced.
Section WithCamelcase.
Variable camelcase : string -> string.

Definition throwExpectedToBeNamed (arg : string) (allArgs : list string)
  : js_error :=
  {| err_id := "expected to be named";
     err_group := None;
     err_holes := [HStr arg; HJson allArgs] |}.

Definition throwLastArgCannotBeNamed (arg : string) (allArgs : list string)
  : js_error :=
  {| err_id := "last arg cannot be named";
     err_group := None;
     err_holes := [HStr arg; HJson allArgs] |}.

(** [namedSimple({ allArgs, allowMultiple = [] })].  The array [allArgs] is
    only read. *)
Definition namedSimple (allArgs allowMultiple : list string)
  : list string * completion object :=
  let result := initResult camelcase allowMultiple in
  (allArgs,
   loop camelcase throwExpectedToBeNamed throwLastArgCannotBeNamed
        allArgs allArgs result).
End WithCamelcase.
End Reduced.

(** ** The full parser *)

Module Full.
Section WithCamelcase.
Variable camelcase : string -> string.

Definition throwExpectedToBeNamed (arg : string) (allArgs : list string)
  : js_error :=
  {| err_id := "expected to be named";
     err_group := Some "cannot parse";
     err_holes := [HStr arg; HJson allArgs] |}.

Definition throwLastArgCannotBeNamed (arg : string) (allArgs : list string)
  : js_error :=
  {| err_id := "last arg cannot be named";
     err_group := Some "cannot parse";
     err_holes := [HStr arg; HJson allArgs] |}.

(** [handleCommand(allArgs, commands, result)]: "mutates allArgs and
    result".  A normal completion carries the two objects as the call
    leaves them; both writes come after the only [throw]. *)
Definition handleCommand (allArgs commands : list string) (result : object)
  : completion (list string * object) :=
  match commands with
  | [] => Return (allArgs, result)
  | _ :: _ =>
      match allArgs with
      | [] =>
          Throw {| err_id := "no command given";
                   err_group := Some "cannot parse";
                   err_holes := [] |}
      | theCommand :: shifted =>
          if negb (bool_decide (theCommand ∈ commands))
          then
            Throw {| err_id := "command given doesn't exist";
                     err_group := Some "cannot parse";
                     err_holes := [HStr theCommand; HJoin ", " commands] |}
          else
            Return (shifted, <["_command" := VStr theCommand]> result)
      end
  end.

(** [namedSimple({ allArgs, allowMultiple = [], commands = [] })] *)
Definition namedSimple (allArgs allowMultiple commands : list string)
  : list string * completion object :=
  if bool_decide ("--help" ∈ allArgs)
  then (allArgs, Return {["help" := VBool true]})
  else if bool_decide ("--version" ∈ allArgs)
  then (allArgs, Return {["version" := VBool true]})
  else
    let result := initResult camelcase allowMultiple in
    match handleCommand allArgs commands result with
    | Throw e => (allArgs, Throw e)
    | Return (allArgs', result') =>
        (allArgs',
         loop camelcase throwExpectedToBeNamed throwLastArgCannotBeNamed
              allArgs' allArgs' result')
    end.
End WithCamelcase.
End Full.

(** ** The two variants behind one entry point *)

Inductive variant : Type :=
| VariantA   (* [Full]: short-circuit and command *)
| VariantB.  (* [Reduced]: the loop alone; [commands] is not a parameter *)

Definition parse (camelcase : string -> string) (v : variant)
  (allArgs allowMultiple commands : list string)
  : list string * completion object :=
  match v with
  | VariantA => Full.namedSimple camelcase allArgs allowMultiple commands
  | VariantB => Reduced.namedSimple camelcase allArgs allowMultiple
  end.

(** A caller that keeps one array and hands it to the parser twice: the
    second call reads the array as the first call left it. *)
Definition parse_twice (camelcase : string -> string) (v : variant)
  (allArgs allowMultiple commands : list string)
  : completion object * completion object :=
  let first := parse camelcase v allArgs allowMultiple commands in
  let second := parse camelcase v first.1 allowMultiple commands in
  (first.2, second.2).

Definition expected_to_be_named_error (v : variant)
  : string -> list string -> js_error :=
  match v with
  | VariantA => Full.throwExpectedToBeNamed
  | VariantB => Reduced.throwExpectedToBeNamed
  end.

Definition last_arg_error (v : variant)
  : string -> list string -> js_error :=
  match v with
  | VariantA => Full.throwLastArgCannotBeNamed
  | VariantB => Reduced.throwLastArgCannotBeNamed
  end.

(** ** Vocabulary of the specification *)

(** [--help] or [--version] is among the tokens of a [VariantA] call. *)
Definition short_circuits (v : variant) (allArgs : list string) : bool :=
  match v with
  | VariantA =>
      bool_decide ("--help" ∈ allArgs) || bool_decide ("--version" ∈ allArgs)
  | VariantB => false
  end.

(** Command mode: [VariantA] with a non-empty command set. *)
Definition command_mode (v : variant) (commands : list string) : bool :=
  match v, commands with
  | VariantA, _ :: _ => true
  | _, _ => false
  end.

(** The command step lets the call through. *)
Definition command_ok (v : variant) (allArgs commands : list string) : bool :=
  if command_mode v commands
  then match allArgs with
       | [] => false
       | theCommand :: _ => bool_decide (theCommand ∈ commands)
       end
  else true.

(** The call takes a command off the caller's array. *)
Definition extracts_command (v : variant) (allArgs commands : list string)
  : bool :=
  negb (short_circuits v allArgs) && command_mode v commands
  && command_ok v allArgs commands.

(** The tokens the main loop walks over. *)
Definition named_part (v : variant) (allArgs commands : list string)
  : list string :=
  if command_mode v commands then tail allArgs else allArgs.

(** A sequence of (name, value) pairs whose names all begin with [--]. *)
Fixpoint names_ok (toks : list string) : bool :=
  match toks with
  | [] => true
  | arg :: val :: rest => String.prefix "--" arg && names_ok rest
  | [_] => false
  end.

(** What the command step writes under [key]: the command, under the
    reserved key, in command mode. *)
Definition reserved_write (v : variant) (allArgs commands : list string)
  (key : string) : list string :=
  if command_mode v commands && bool_decide (key = "_command")
  then take 1 allArgs else [].

Section Vocabulary.
Variable camelcase : string -> string.

(** The result object when the main loop starts. *)
Definition start_result (v : variant) (allArgs allowMultiple commands : list string)
  : object :=
  if command_mode v commands
  then match allArgs with
       | theCommand :: _ =>
           <["_command" := VStr theCommand]> (initResult camelcase allowMultiple)
       | [] => initResult camelcase allowMultiple
       end
  else initResult camelcase allowMultiple.

(** The values supplied for [key], first to last. *)
Fixpoint values_for (key : string) (toks : list string) : list string :=
  match toks with
  | arg :: val :: rest =>
      if decide (camelcase arg = key)
      then val :: values_for key rest
      else values_for key rest
  | _ => []
  end.

(** The loop body applied to each pair in turn. *)
Fixpoint assign_all (result : object) (toks : list string) : object :=
  match toks with
  | arg :: val :: rest => assign_all (assign result (camelcase arg) val) rest
  | _ => result
  end.

(** A key declared multi-valued, in its camel-cased form. *)
Definition declared (allowMultiple : list string) (key : string) : Prop :=
  key ∈ camelcase <$> allowMultiple.
End Vocabulary.

#[global] Instance declared_dec camelcase allowMultiple key :
  Decision (declared camelcase allowMultiple key).
Proof. unfold declared. apply _. Defined.

(** The tokens at the name positions of a sequence of pairs. *)
Fixpoint names_of (toks : list string) : list string :=
  match toks with
  | arg :: _ :: rest => arg :: names_of rest
  | _ => []
  end.

(** The calls that return a result: a short-circuit, or a command step that
    passes followed by well-formed pairs. *)
Definition parses (v : variant) (allArgs commands : list string) : bool :=
  short_circuits v allArgs
  || (command_ok v allArgs commands
      && names_ok (named_part v allArgs commands)).

(** Two completions with the same result, or with failures that differ at
    most in their [group]. *)
Definition agree_up_to_group (o1 o2 : completion object) : Prop :=
  match o1, o2 with
  | Return r1, Return r2 => r1 = r2
  | Throw e1, Throw e2 => err_id e1 = err_id e2 /\ err_holes e1 = err_holes e2
  | _, _ => False
  end.

(** Two completions with the same failure, or with results that hold the
    same under every key but [key]. *)
Definition agree_off (key : string) (o1 o2 : completion object) : Prop :=
  match o1, o2 with
  | Return r1, Return r2 => forall k, k <> key -> r1 !! k = r2 !! k
  | Throw e1, Throw e2 => e1 = e2
  | _, _ => False
  end.

(** Settles a decidable closed proposition by evaluating its decision. *)
Ltac by_computation :=
  refine (bool_decide_unpack _ _); vm_compute; exact I.

(** * Properties *)

(** Induction over a token list two tokens at a time. *)
Lemma pair_ind {A : Type} (P : list A -> Prop) :
  P [] -> (forall a, P [a]) -> (forall a b l, P l -> P (a :: b :: l)) ->
  forall l, P l.
Proof.
  intros Hnil Hone Hstep l.
  assert (H : P l /\ forall a, P (a :: l)).
  { induction l as [|b l [IH1 IH2]]; split; auto. }
  exact (proj1 H).
Qed.

Section LoopFacts.
Variable camelcase : string -> string.
Variables thE thL : string -> list string -> js_error.

Lemma loop_cons_named allArgs arg val rest r :
  String.prefix "--" arg = true ->
  loop camelcase thE thL allArgs (arg :: val :: rest) r
  = loop camelcase thE thL allArgs rest (assign r (camelcase arg) val).
Proof. intros H. simpl. rewrite H. reflexivity. Qed.

Lemma loop_app allArgs pre suffix r :
  names_ok pre = true ->
  loop camelcase thE thL allArgs (pre ++ suffix) r
  = loop camelcase thE thL allArgs suffix (assign_all camelcase r pre).
Proof.
  revert r. induction pre as [|a|a b pre IH] using pair_ind; intros r Hok.
  - reflexivity.
  - discriminate.
  - simpl in Hok. apply andb_true_iff in Hok as [Ha Hpre].
    change ((a :: b :: pre) ++ suffix) with (a :: b :: (pre ++ suffix)).
    rewrite loop_cons_named by assumption.
    rewrite IH by assumption. reflexivity.
Qed.

Lemma loop_names_ok allArgs toks r :
  names_ok toks = true ->
  loop camelcase thE thL allArgs toks r = Return (assign_all camelcase r toks).
Proof.
  intros Hok. rewrite <- (app_nil_r toks) at 1.
  rewrite loop_app by assumption. reflexivity.
Qed.

Lemma loop_Return_names_ok allArgs toks r r' :
  loop camelcase thE thL allArgs toks r = Return r' ->
  names_ok toks = true.
Proof.
  revert r. induction toks as [|a|a b toks IH] using pair_ind; intros r.
  - reflexivity.
  - simpl. destruct (String.prefix "--" a); discriminate.
  - simpl. destruct (String.prefix "--" a); simpl; [|discriminate].
    apply IH.
Qed.

(** The cursor loop never runs out of iterations within [length allArgs]
    of them and never reads past the end: it is [loop] on the tokens from
    the cursor on. *)
Lemma for_loop_drop fuel allArgs i r :
  length allArgs - i < fuel ->
  for_loop camelcase thE thL fuel allArgs i r
  = Some (loop camelcase thE thL allArgs (drop i allArgs) r).
Proof.
  revert i r. induction fuel as [|fuel IH]; intros i r Hfuel; [lia|].
  cbn [for_loop]. destruct (allArgs !! i) as [arg|] eqn:Hi.
  - pose proof (lookup_lt_Some _ _ _ Hi) as Hlt.
    rewrite (drop_S _ _ _ Hi). cbn [loop].
    destruct (negb (String.prefix "--" arg)); [reflexivity|].
    destruct (decide (i = length allArgs - 1)) as [Hlast|Hlast].
    + rewrite drop_ge by lia. reflexivity.
    + destruct (allArgs !! (i + 1)) as [val|] eqn:Hv.
      * replace (S i) with (i + 1) by lia. rewrite (drop_S _ _ _ Hv).
        rewrite IH by lia. do 3 f_equal. lia.
      * apply lookup_ge_None in Hv. lia.
  - apply lookup_ge_None in Hi. rewrite drop_ge by lia. reflexivity.
Qed.

Lemma for_loop_is_loop allArgs r :
  for_loop camelcase thE thL (S (length allArgs)) allArgs 0 r
  = Some (loop camelcase thE thL allArgs allArgs r).
Proof. rewrite for_loop_drop by lia. reflexivity. Qed.

Lemma assign_lookup r key val k :
  assign r key val !! k
  = if decide (key = k)
    then match r !! k with
         | Some (VArr xs) => Some (VArr (xs ++ [val]))
         | _ => Some (VStr val)
         end
    else r !! k.
Proof.
  unfold assign. case_decide as Hk.
  - subst k. destruct (r !! key) as [[b|s|xs]|]; apply lookup_insert_eq.
  - destruct (r !! key) as [[b|s|xs]|]; by rewrite lookup_insert_ne.
Qed.

(** What the pairs of [toks] leave under each key. *)
Lemma assign_all_lookup toks r k :
  assign_all camelcase r toks !! k
  = match r !! k with
    | Some (VArr xs) => Some (VArr (xs ++ values_for camelcase k toks))
    | other =>
        match last (values_for camelcase k toks) with
        | Some s => Some (VStr s)
        | None => other
        end
    end.
Proof.
  revert r. induction toks as [|a|a b toks IH] using pair_ind; intros r.
  - simpl. destruct (r !! k) as [[?|?|xs]|]; try reflexivity.
    by rewrite app_nil_r.
  - simpl. destruct (r !! k) as [[?|?|xs]|]; try reflexivity.
    by rewrite app_nil_r.
  - simpl. rewrite IH, assign_lookup.
    destruct (decide (camelcase a = k)) as [Hk|Hk]; [|reflexivity].
    rewrite last_cons.
    destruct (r !! k) as [[?|?|xs]|];
      try (destruct (last (values_for camelcase k toks)); reflexivity).
    by rewrite <- app_assoc.
Qed.
End LoopFacts.

Section ResultFacts.
Variable camelcase : string -> string.

Lemma initResult_lookup allowMultiple k :
  initResult camelcase allowMultiple !! k
  = if decide (declared camelcase allowMultiple k) then Some (VArr []) else None.
Proof.
  unfold initResult, declared.
  assert (G : forall (acc : object),
    foldl (fun res arg => <[camelcase arg := VArr []]> res) acc allowMultiple !! k
    = if decide (k ∈ camelcase <$> allowMultiple)
      then Some (VArr []) else acc !! k).
  { induction allowMultiple as [|a am IH]; intros acc.
    - destruct (decide (k ∈ camelcase <$> [])) as [H|H]; [|reflexivity].
      by apply elem_of_nil in H.
    - cbn [foldl]. rewrite IH, lookup_insert.
      destruct (decide (k ∈ camelcase <$> am)) as [H1|H1];
        destruct (decide (k ∈ camelcase <$> a :: am)) as [H2|H2];
        destruct (decide (camelcase a = k)) as [H3|H3];
        try reflexivity; exfalso;
        rewrite fmap_cons, elem_of_cons in H2; intuition congruence. }
  rewrite G. destruct (decide _); [reflexivity | apply lookup_empty].
Qed.
End ResultFacts.

Section ParseFacts.
Variable camelcase : string -> string.

Lemma short_circuits_A allArgs :
  short_circuits VariantA allArgs = false ->
  ("--help" ∉ allArgs) /\ ("--version" ∉ allArgs).
Proof.
  unfold short_circuits. intros H. apply orb_false_iff in H as [H1 H2].
  split; eapply bool_decide_eq_false; eassumption.
Qed.

Lemma Full_no_short_circuit allArgs allowMultiple commands :
  "--help" ∉ allArgs -> "--version" ∉ allArgs ->
  Full.namedSimple camelcase allArgs allowMultiple commands
  = match Full.handleCommand allArgs commands
            (initResult camelcase allowMultiple) with
    | Throw e => (allArgs, Throw e)
    | Return (allArgs', result') =>
        (allArgs',
         loop camelcase Full.throwExpectedToBeNamed
              Full.throwLastArgCannotBeNamed allArgs' allArgs' result')
    end.
Proof.
  intros Hh Hv. unfold Full.namedSimple.
  rewrite (bool_decide_eq_false_2 _ Hh), (bool_decide_eq_false_2 _ Hv).
  reflexivity.
Qed.

(** Past the short-circuit and the command step, a call is the main loop
    over [named_part], started from [start_result]. *)
Lemma parse_main v allArgs allowMultiple commands :
  short_circuits v allArgs = false ->
  command_ok v allArgs commands = true ->
  parse camelcase v allArgs allowMultiple commands
  = (named_part v allArgs commands,
     loop camelcase (expected_to_be_named_error v) (last_arg_error v)
          (named_part v allArgs commands) (named_part v allArgs commands)
          (start_result camelcase v allArgs allowMultiple commands)).
Proof.
  destruct v; [|reflexivity].
  intros Hsc Hok. apply short_circuits_A in Hsc as [Hh Hv].
  cbn [parse]. rewrite Full_no_short_circuit by assumption.
  unfold command_ok, named_part, start_result in *.
  destruct commands as [|c commands]; [reflexivity|].
  cbn [command_mode] in *. destruct allArgs as [|a allArgs]; [discriminate|].
  cbn [Full.handleCommand]. rewrite Hok. reflexivity.
Qed.

(** A call that the command step stops. *)
Lemma parse_command_fails v allArgs allowMultiple commands :
  short_circuits v allArgs = false ->
  command_ok v allArgs commands = false ->
  exists e,
    parse camelcase v allArgs allowMultiple commands = (allArgs, Throw e).
Proof.
  destruct v; [|discriminate].
  intros Hsc Hok. apply short_circuits_A in Hsc as [Hh Hv].
  cbn [parse]. rewrite Full_no_short_circuit by assumption.
  unfold command_ok in Hok.
  destruct commands as [|c commands]; [discriminate|].
  cbn [command_mode] in Hok. destruct allArgs as [|a allArgs].
  - eexists. reflexivity.
  - cbn [Full.handleCommand]. rewrite Hok. eexists. reflexivity.
Qed.

Lemma parse_short_circuits allArgs allowMultiple commands :
  short_circuits VariantA allArgs = true ->
  (parse camelcase VariantA allArgs allowMultiple commands).1 = allArgs.
Proof.
  intros H. cbn [parse]. unfold Full.namedSimple.
  destruct (bool_decide ("--help" ∈ allArgs)) eqn:Hh; [reflexivity|].
  destruct (bool_decide ("--version" ∈ allArgs)) eqn:Hv; [reflexivity|].
  unfold short_circuits in H. rewrite Hh, Hv in H. discriminate.
Qed.

(** The caller's array when the call ends. *)
Lemma parse_fst v allArgs allowMultiple commands :
  (parse camelcase v allArgs allowMultiple commands).1
  = if extracts_command v allArgs commands then tail allArgs else allArgs.
Proof.
  unfold extracts_command.
  destruct (short_circuits v allArgs) eqn:Hsc.
  - destruct v; [|discriminate]. by apply parse_short_circuits.
  - cbn [negb andb]. destruct (command_ok v allArgs commands) eqn:Hok.
    + rewrite parse_main by assumption. cbn [fst]. unfold named_part.
      rewrite andb_true_r. reflexivity.
    + rewrite andb_false_r.
      destruct (parse_command_fails v allArgs allowMultiple commands Hsc Hok)
        as [e ->].
      reflexivity.
Qed.

Lemma start_result_lookup v allArgs allowMultiple commands k :
  command_ok v allArgs commands = true ->
  start_result camelcase v allArgs allowMultiple commands !! k
  = if command_mode v commands && bool_decide (k = "_command")
    then VStr <$> head allArgs
    else if decide (declared camelcase allowMultiple k)
         then Some (VArr []) else None.
Proof.
  unfold command_ok, start_result. intros Hok.
  destruct (command_mode v commands); cbn [andb].
  - destruct allArgs as [|c allArgs]; [discriminate|]. cbn [head fmap option_fmap option_map].
    clear Hok. rewrite lookup_insert. case_bool_decide as Hk; subst.
    + rewrite decide_True by reflexivity. reflexivity.
    + rewrite decide_False by congruence. apply initResult_lookup.
  - apply initResult_lookup.
Qed.
End ParseFacts.

(** ** The short-circuit *)

Section ShortCircuit.
Variable camelcase : string -> string.

(** C1.  Whenever [--help] is among the tokens, the full parser returns
    exactly the one-key object [{ help: true }]: no pre-seeded array, no
    command key, and no failure, whatever the other tokens and the
    configured commands are. *)
Theorem help_short_circuit allArgs allowMultiple commands :
  "--help" ∈ allArgs ->
  Full.namedSimple camelcase allArgs allowMultiple commands
  = (allArgs, Return {["help" := VBool true]}).
Proof.
  intros Hh. unfold Full.namedSimple.
  rewrite (bool_decide_eq_true_2 _ Hh). reflexivity.
Qed.

(** C8.  Whenever [--version] is among the tokens, the full parser returns
    exactly [{ version: true }] if [--help] is absent, and [{ help: true }]
    if [--help] is present too. *)
Theorem version_short_circuit allArgs allowMultiple commands :
  "--version" ∈ allArgs ->
  Full.namedSimple camelcase allArgs allowMultiple commands
  = (allArgs,
     Return (if bool_decide ("--help" ∈ allArgs)
             then {["help" := VBool true]}
             else {["version" := VBool true]})).
Proof.
  intros Hv. unfold Full.namedSimple.
  destruct (bool_decide ("--help" ∈ allArgs)); [reflexivity|].
  rewrite (bool_decide_eq_true_2 _ Hv). reflexivity.
Qed.
End ShortCircuit.

(** ** The command step *)

Section Command.
Variable camelcase : string -> string.

(** C6.  With a non-empty command set and neither [--help] nor
    [--version] among the tokens, the full parser fails with
    'no command given' on an empty token sequence, and with
    'command given doesn't exist' when the first token is not a configured
    command; that failure carries the offending token and the whole
    command set. *)
Theorem command_errors allArgs allowMultiple commands :
  commands <> [] ->
  "--help" ∉ allArgs ->
  "--version" ∉ allArgs ->
  (allArgs = [] ->
   Full.namedSimple camelcase allArgs allowMultiple commands
   = (allArgs,
      Throw {| err_id := "no command given";
               err_group := Some "cannot parse";
               err_holes := [] |}))
  /\ (forall theCommand,
        head allArgs = Some theCommand ->
        theCommand ∉ commands ->
        Full.namedSimple camelcase allArgs allowMultiple commands
        = (allArgs,
           Throw {| err_id := "command given doesn't exist";
                    err_group := Some "cannot parse";
                    err_holes := [HStr theCommand; HJoin ", " commands] |})).
Proof.
  intros Hc Hh Hv. rewrite Full_no_short_circuit by assumption.
  destruct commands as [|c cs]; [congruence|]. split.
  - intros ->. reflexivity.
  - intros theCommand Hhead Hnot.
    destruct allArgs as [|a rest]; [discriminate|].
    injection Hhead as ->. cbn [Full.handleCommand].
    rewrite (bool_decide_eq_false_2 _ Hnot). reflexivity.
Qed.

(** C7 (amended).  With neither [--help] nor [--version] among the tokens,
    a non-empty command set and a first token that is one of the commands,
    the full parser takes that token off the sequence and runs the main
    loop on the remaining tokens only, from a result that holds the token
    under [_command]; unless a later name camel-cases to [_command], a
    successful result still holds it there. *)
Theorem command_extracted theCommand rest allowMultiple commands :
  "--help" ∉ theCommand :: rest ->
  "--version" ∉ theCommand :: rest ->
  theCommand ∈ commands ->
  let outcome :=
    Full.namedSimple camelcase (theCommand :: rest) allowMultiple commands in
  outcome
  = (rest,
     loop camelcase Full.throwExpectedToBeNamed
          Full.throwLastArgCannotBeNamed rest rest
          (<["_command" := VStr theCommand]>
             (initResult camelcase allowMultiple)))
  /\ (forall result,
        outcome.2 = Return result ->
        values_for camelcase "_command" rest = [] ->
        result !! "_command" = Some (VStr theCommand)).
Proof.
  intros Hh Hv Hin outcome.
  assert (E : outcome
              = (rest,
                 loop camelcase Full.throwExpectedToBeNamed
                   Full.throwLastArgCannotBeNamed rest rest
                   (<["_command" := VStr theCommand]>
                      (initResult camelcase allowMultiple)))).
  { unfold outcome. rewrite Full_no_short_circuit by assumption.
    destruct commands as [|c cs]; [by apply elem_of_nil in Hin|].
    cbn [Full.handleCommand].
    rewrite (bool_decide_eq_true_2 _ Hin). reflexivity. }
  split; [exact E|].
  intros result Hres Hnone. rewrite E in Hres. cbn [snd] in Hres.
  pose proof (loop_Return_names_ok _ _ _ _ _ _ _ Hres) as Hok.
  rewrite loop_names_ok in Hres by assumption.
  injection Hres as <-.
  rewrite assign_all_lookup, lookup_insert_eq, Hnone. reflexivity.
Qed.
End Command.

(** ** The main loop *)

Section MainLoop.
Variable camelcase : string -> string.

(** The failure on a trailing name, as the code stands.  Past the
    short-circuit and the command step, when the loop reads at a name
    position a token that begins with [--] and is the last one, the call
    fails with 'last arg cannot be named' and returns no result.  The helper
    prints the array it is handed: outside command mode that is the whole
    sequence the caller passed; in command mode [handleCommand] has already
    shifted it, and the command is missing from what is printed (see
    [last_arg_detail_without_command]). *)
Theorem last_arg_cannot_be_named v allArgs allowMultiple commands pre arg :
  short_circuits v allArgs = false ->
  command_ok v allArgs commands = true ->
  named_part v allArgs commands = pre ++ [arg] ->
  names_ok pre = true ->
  String.prefix "--" arg = true ->
  (parse camelcase v allArgs allowMultiple commands).2
  = Throw {| err_id := "last arg cannot be named";
             err_group := match v with
                          | VariantA => Some "cannot parse"
                          | VariantB => None
                          end;
             err_holes :=
               [HStr arg;
                HJson (if command_mode v commands
                       then tail allArgs else allArgs)] |}.
Proof.
  intros Hsc Hok Hpart Hpre Harg.
  rewrite parse_main by assumption. cbn [snd].
  fold (named_part v allArgs commands).
  rewrite Hpart at 2. rewrite loop_app by assumption.
  cbn [loop]. rewrite Harg. cbn [negb]. destruct v; reflexivity.
Qed.

(** The prefix check, as the code stands.  Past the short-circuit and the
    command step, when the loop reads at a name position a token that does
    not begin with [--], the call fails with 'expected to be named'.  The
    helper prints the array it is handed: outside command mode that is the
    whole sequence the caller passed; in command mode it is the shifted
    array, without the command (see [expected_detail_without_command]).  A
    token that does begin with [--] passes, whatever its length: with a
    value after it the loop stores the value and goes on. *)
Theorem expected_to_be_named v allArgs allowMultiple commands pre arg rest :
  short_circuits v allArgs = false ->
  command_ok v allArgs commands = true ->
  named_part v allArgs commands = pre ++ arg :: rest ->
  names_ok pre = true ->
  (String.prefix "--" arg = false ->
   (parse camelcase v allArgs allowMultiple commands).2
   = Throw {| err_id := "expected to be named";
              err_group := match v with
                           | VariantA => Some "cannot parse"
                           | VariantB => None
                           end;
              err_holes :=
                [HStr arg;
                 HJson (if command_mode v commands
                        then tail allArgs else allArgs)] |})
  /\ (String.prefix "--" arg = true ->
      forall val rest',
        rest = val :: rest' ->
        (parse camelcase v allArgs allowMultiple commands).2
        = loop camelcase (expected_to_be_named_error v)
            (last_arg_error v)
            (named_part v allArgs commands) rest'
            (assign
               (assign_all camelcase
                  (start_result camelcase v allArgs allowMultiple commands)
                  pre)
               (camelcase arg) val)).
Proof.
  intros Hsc Hok Hpart Hpre.
  rewrite parse_main by assumption. cbn [snd].
  fold (named_part v allArgs commands).
  split.
  - intros Harg. rewrite Hpart at 2. rewrite loop_app by assumption.
    cbn [loop]. rewrite Harg. cbn [negb]. destruct v; reflexivity.
  - intros Harg val rest' ->. rewrite Hpart at 2.
    rewrite loop_app by assumption. apply loop_cons_named. assumption.
Qed.

(** C10 (amended).  In both variants, past the short-circuit and the
    command step, the token read at a value position is stored as it is
    under the preceding name, whatever it looks like (it may begin with
    [--]), and the loop goes on after it. *)
Theorem value_token_unchecked v allArgs allowMultiple commands pre arg val rest :
  short_circuits v allArgs = false ->
  command_ok v allArgs commands = true ->
  named_part v allArgs commands = pre ++ arg :: val :: rest ->
  names_ok pre = true ->
  String.prefix "--" arg = true ->
  (parse camelcase v allArgs allowMultiple commands).2
  = loop camelcase (expected_to_be_named_error v) (last_arg_error v)
      (named_part v allArgs commands) rest
      (assign
         (assign_all camelcase
            (start_result camelcase v allArgs allowMultiple commands) pre)
         (camelcase arg) val)
  /\ (rest = [] ->
      exists result,
        (parse camelcase v allArgs allowMultiple commands).2 = Return result
        /\ (result !! camelcase arg = Some (VStr val)
            \/ exists xs, result !! camelcase arg = Some (VArr (xs ++ [val])))).
Proof.
  intros Hsc Hok Hpart Hpre Harg.
  match goal with |- ?lhs = ?rhs /\ _ => assert (E : lhs = rhs) end.
  { rewrite parse_main by assumption. cbn [snd].
    rewrite Hpart at 2. rewrite loop_app by assumption.
    by apply loop_cons_named. }
  split; [exact E|]. intros ->. rewrite E. cbn [loop].
  eexists. split; [reflexivity|].
  rewrite assign_lookup, decide_True by reflexivity.
  destruct (_ !! camelcase arg) as [[?|?|xs]|]; eauto.
Qed.
End MainLoop.

(** ** The shape of a result *)

Section ResultShape.
Variable camelcase : string -> string.

(** C2 (amended).  On every call that succeeds without short-circuit
    (the reserved key [_command] not being a declared key in command
    mode), each declared key is in the result with an array holding
    exactly the values supplied for it, first to last (empty when none
    was), and each other key holds a scalar string, the last one written
    to it, or is absent when nothing was. *)
Theorem allowMultiple_invariant v allArgs allowMultiple commands result :
  short_circuits v allArgs = false ->
  (command_mode v commands = true ->
   ~ declared camelcase allowMultiple "_command") ->
  (parse camelcase v allArgs allowMultiple commands).2 = Return result ->
  forall key,
    (declared camelcase allowMultiple key ->
     result !! key
     = Some (VArr (values_for camelcase key (named_part v allArgs commands))))
    /\ (~ declared camelcase allowMultiple key ->
        result !! key
        = VStr <$> last (reserved_write v allArgs commands key
                         ++ values_for camelcase key
                              (named_part v allArgs commands))).
Proof.
  intros Hsc Hres Hret key.
  destruct (command_ok v allArgs commands) eqn:Hok; cycle 1.
  { destruct (parse_command_fails camelcase v allArgs allowMultiple
                commands Hsc Hok) as [e He].
    rewrite He in Hret. discriminate. }
  rewrite parse_main in Hret by assumption. cbn [snd] in Hret.
  pose proof (loop_Return_names_ok _ _ _ _ _ _ _ Hret) as Hnames.
  rewrite loop_names_ok in Hret by assumption. injection Hret as <-.
  rewrite assign_all_lookup, start_result_lookup by assumption.
  unfold reserved_write.
  destruct (command_mode v commands && bool_decide (key = "_command"))
    eqn:Hmode.
  - apply andb_true_iff in Hmode as [Hm Hk].
    apply bool_decide_eq_true in Hk. subst key.
    split; [intros Hd; destruct (Hres Hm Hd)|]. intros _.
    unfold command_ok in Hok. rewrite Hm in Hok.
    destruct allArgs as [|c allArgs]; [discriminate|].
    cbn [head fmap option_fmap option_map take].
    rewrite last_app. cbn [last].
    destruct (last (values_for camelcase "_command" _)); reflexivity.
  - rewrite app_nil_l.
    destruct (decide (declared camelcase allowMultiple key)) as [Hd|Hd];
      split; intros Hd'; try contradiction; [reflexivity|].
    destruct (last (values_for camelcase key _)); reflexivity.
Qed.
End ResultShape.

(** ** The caller's array *)

Section CallerArray.
Variable camelcase : string -> string.

(** C3 (amended).  Both variants leave the caller's token sequence as it
    was, on success and on failure, except for the full variant when it
    takes a command: that call removes the first element from the
    caller's sequence and leaves the others in place. *)
Theorem caller_array_after_parse v allArgs allowMultiple commands :
  (parse camelcase v allArgs allowMultiple commands).1
  = if extracts_command v allArgs commands then tail allArgs else allArgs.
Proof. apply parse_fst. Qed.

(** What a second call on the same array sees. *)
Lemma parse_twice_unfold v allArgs allowMultiple commands :
  parse_twice camelcase v allArgs allowMultiple commands
  = ((parse camelcase v allArgs allowMultiple commands).2,
     (parse camelcase v
        (if extracts_command v allArgs commands
         then tail allArgs else allArgs)
        allowMultiple commands).2).
Proof. unfold parse_twice. rewrite parse_fst. reflexivity. Qed.

(** C9 (amended).  When one array is handed to the parser twice with the
    same configuration and the first call takes no command off it (always
    so in the reduced variant), the two calls have the same outcome: the
    same result object, or the same failure. *)
Theorem parse_twice_same v allArgs allowMultiple commands :
  extracts_command v allArgs commands = false ->
  let again := parse_twice camelcase v allArgs allowMultiple commands in
  again.1 = again.2
  /\ again.1 = (parse camelcase v allArgs allowMultiple commands).2.
Proof.
  intros Hno again. unfold again. rewrite parse_twice_unfold, Hno.
  split; reflexivity.
Qed.

(** After a command was taken off, the second call parses the array
    without its first element. *)
Lemma parse_twice_after_extraction v allArgs allowMultiple commands :
  extracts_command v allArgs commands = true ->
  (parse_twice camelcase v allArgs allowMultiple commands).2
  = (parse camelcase v (tail allArgs) allowMultiple commands).2.
Proof. intros Hyes. rewrite parse_twice_unfold, Hyes. reflexivity. Qed.
End CallerArray.

(** * Worked examples

    The examples of the specification, run with [camelcase_dashed]. *)

Lemma help_short_circuit_witness :
  ("--help" ∈ ["deploy"; "positional"; "--help"; "--x"])
  /\ Full.namedSimple camelcase_dashed
       ["deploy"; "positional"; "--help"; "--x"] ["--name"] ["run"; "build"]
     = (["deploy"; "positional"; "--help"; "--x"],
        Return {["help" := VBool true]}).
Proof.
  assert (H : "--help" ∈ ["deploy"; "positional"; "--help"; "--x"])
    by by_computation.
  split; [exact H|].
  exact (help_short_circuit camelcase_dashed _ ["--name"] ["run"; "build"] H).
Defined.

Lemma version_short_circuit_witness :
  ("--version" ∈ ["-x"; "--version"])
  /\ Full.namedSimple camelcase_dashed ["-x"; "--version"] ["--name"] ["run"]
     = (["-x"; "--version"], Return {["version" := VBool true]}).
Proof.
  assert (H : "--version" ∈ ["-x"; "--version"])
    by by_computation.
  split; [exact H|].
  exact (version_short_circuit camelcase_dashed _ ["--name"] ["run"] H).
Defined.

Lemma command_errors_witness :
  ["run"; "build"] <> []
  /\ ("--help" ∉ ["deploy"])
  /\ ("--version" ∉ ["deploy"])
  /\ ("deploy" ∉ ["run"; "build"])
  /\ Full.namedSimple camelcase_dashed ["deploy"] [] ["run"; "build"]
     = (["deploy"],
        Throw {| err_id := "command given doesn't exist";
                 err_group := Some "cannot parse";
                 err_holes := [HStr "deploy"; HJoin ", " ["run"; "build"]] |}).
Proof.
  assert (Hc : ["run"; "build"] <> []) by discriminate.
  assert (Hh : "--help" ∉ ["deploy"]) by by_computation.
  assert (Hv : "--version" ∉ ["deploy"]) by by_computation.
  assert (Hn : "deploy" ∉ ["run"; "build"]) by by_computation.
  refine (conj Hc (conj Hh (conj Hv (conj Hn _)))).
  exact (proj2 (command_errors camelcase_dashed ["deploy"] [] _ Hc Hh Hv)
           "deploy" eq_refl Hn).
Defined.

Lemma command_extracted_witness :
  ("--help" ∉ ["run"; "--force"; "x"])
  /\ ("--version" ∉ ["run"; "--force"; "x"])
  /\ ("run" ∈ ["run"; "build"])
  /\ Full.namedSimple camelcase_dashed ["run"; "--force"; "x"] []
       ["run"; "build"]
     = (["--force"; "x"],
        Return {["_command" := VStr "run"; "force" := VStr "x"]}).
Proof.
  assert (Hh : "--help" ∉ ["run"; "--force"; "x"])
    by by_computation.
  assert (Hv : "--version" ∉ ["run"; "--force"; "x"])
    by by_computation.
  assert (Hin : "run" ∈ ["run"; "build"]) by by_computation.
  refine (conj Hh (conj Hv (conj Hin _))).
  etrans;
    [exact (proj1 (command_extracted camelcase_dashed "run" ["--force"; "x"]
                     [] ["run"; "build"] Hh Hv Hin))|].
  vm_compute. reflexivity.
Defined.

Lemma last_arg_cannot_be_named_witness :
  short_circuits VariantA ["--name"; "phil"; "--flag"] = false
  /\ command_ok VariantA ["--name"; "phil"; "--flag"] [] = true
  /\ named_part VariantA ["--name"; "phil"; "--flag"] []
     = ["--name"; "phil"] ++ ["--flag"]
  /\ names_ok ["--name"; "phil"] = true
  /\ String.prefix "--" "--flag" = true
  /\ (parse camelcase_dashed VariantA ["--name"; "phil"; "--flag"] [] []).2
     = Throw {| err_id := "last arg cannot be named";
                err_group := Some "cannot parse";
                err_holes :=
                  [HStr "--flag"; HJson ["--name"; "phil"; "--flag"]] |}.
Proof.
  refine (conj eq_refl (conj eq_refl (conj eq_refl (conj eq_refl
            (conj eq_refl _))))).
  exact (last_arg_cannot_be_named camelcase_dashed VariantA
           ["--name"; "phil"; "--flag"] [] [] ["--name"; "phil"] "--flag"
           eq_refl eq_refl eq_refl eq_refl eq_refl).
Defined.

Lemma expected_to_be_named_witness :
  short_circuits VariantB ["positional"] = false
  /\ command_ok VariantB ["positional"] [] = true
  /\ named_part VariantB ["positional"] [] = [] ++ ["positional"]
  /\ names_ok [] = true
  /\ String.prefix "--" "positional" = false
  /\ (parse camelcase_dashed VariantB ["positional"] [] []).2
     = Throw {| err_id := "expected to be named";
                err_group := None;
                err_holes := [HStr "positional"; HJson ["positional"]] |}
  /\ String.prefix "--" "--n" = true
  /\ (parse camelcase_dashed VariantA ["--n"; "phil"] [] []).2
     = Return {["n" := VStr "phil"]}.
Proof.
  refine (conj eq_refl (conj eq_refl (conj eq_refl (conj eq_refl
            (conj eq_refl (conj _ (conj eq_refl _))))))).
  - exact (proj1 (expected_to_be_named camelcase_dashed VariantB
                    ["positional"] [] [] [] "positional" []
                    eq_refl eq_refl eq_refl eq_refl) eq_refl).
  - etrans;
      [exact (proj2 (expected_to_be_named camelcase_dashed VariantA
                       ["--n"; "phil"] [] [] [] "--n" ["phil"]
                       eq_refl eq_refl eq_refl eq_refl)
                eq_refl "phil" [] eq_refl)|].
    vm_compute. reflexivity.
Defined.

Lemma value_token_unchecked_witness :
  short_circuits VariantA ["--a"; "--b"] = false
  /\ command_ok VariantA ["--a"; "--b"] [] = true
  /\ named_part VariantA ["--a"; "--b"] [] = [] ++ ["--a"; "--b"]
  /\ names_ok [] = true
  /\ String.prefix "--" "--a" = true
  /\ (parse camelcase_dashed VariantA ["--a"; "--b"] [] []).2
     = Return {["a" := VStr "--b"]}
  /\ (parse camelcase_dashed VariantB ["--a"; "--b"] [] []).2
     = Return {["a" := VStr "--b"]}.
Proof.
  refine (conj eq_refl (conj eq_refl (conj eq_refl (conj eq_refl
            (conj eq_refl (conj _ _)))))).
  - etrans;
      [exact (proj1 (value_token_unchecked camelcase_dashed VariantA
                       ["--a"; "--b"] [] [] [] "--a" "--b" []
                       eq_refl eq_refl eq_refl eq_refl eq_refl))|].
    vm_compute. reflexivity.
  - etrans;
      [exact (proj1 (value_token_unchecked camelcase_dashed VariantB
                       ["--a"; "--b"] [] [] [] "--a" "--b" []
                       eq_refl eq_refl eq_refl eq_refl eq_refl))|].
    vm_compute. reflexivity.
Defined.

Lemma allowMultiple_invariant_witness :
  let allArgs :=
    ["run"; "--name"; "phil"; "--age"; "32"; "--name"; "matt"; "--age"; "33"] in
  let result : object :=
    {["_command" := VStr "run"; "name" := VArr ["phil"; "matt"];
      "tag" := VArr []; "age" := VStr "33"]} in
  short_circuits VariantA allArgs = false
  /\ (command_mode VariantA ["run"] = true ->
      ~ declared camelcase_dashed ["--name"; "--tag"] "_command")
  /\ (parse camelcase_dashed VariantA allArgs ["--name"; "--tag"] ["run"]).2
     = Return result
  /\ result !! "name" = Some (VArr ["phil"; "matt"])
  /\ result !! "tag" = Some (VArr [])
  /\ result !! "age" = Some (VStr "33")
  /\ result !! "_command" = Some (VStr "run")
  /\ result !! "colour" = None.
Proof.
  intros allArgs result.
  assert (Hsc : short_circuits VariantA allArgs = false) by reflexivity.
  assert (Hres : command_mode VariantA ["run"] = true ->
                 ~ declared camelcase_dashed ["--name"; "--tag"] "_command")
    by (intros _; by_computation).
  assert (Hret : (parse camelcase_dashed VariantA allArgs
                    ["--name"; "--tag"] ["run"]).2 = Return result)
    by (vm_compute; reflexivity).
  pose proof (allowMultiple_invariant camelcase_dashed VariantA allArgs
                ["--name"; "--tag"] ["run"] result Hsc Hres Hret) as Shape.
  refine (conj Hsc (conj Hres (conj Hret (conj _ (conj _ (conj _
            (conj _ _))))))).
  - refine (proj1 (Shape "name") _). by_computation.
  - refine (proj1 (Shape "tag") _). by_computation.
  - refine (proj2 (Shape "age") _). by_computation.
  - refine (proj2 (Shape "_command") _). by_computation.
  - refine (proj2 (Shape "colour") _). by_computation.
Defined.

Lemma parse_twice_same_witness :
  extracts_command VariantB ["--name"; "phil"; "--name"; "matt"] [] = false
  /\ parse_twice camelcase_dashed VariantB
       ["--name"; "phil"; "--name"; "matt"] ["--name"] []
     = (Return {["name" := VArr ["phil"; "matt"]]},
        Return {["name" := VArr ["phil"; "matt"]]}).
Proof.
  refine (conj eq_refl _).
  pose proof (parse_twice_same camelcase_dashed VariantB
                ["--name"; "phil"; "--name"; "matt"] ["--name"] [] eq_refl)
    as [Hsame Hfirst].
  rewrite (surjective_pairing (parse_twice _ _ _ _ _)).
  rewrite <- Hsame, Hfirst. vm_compute. reflexivity.
Defined.

Example named_pairs :
  parse camelcase_dashed VariantA ["--name"; "phil"; "--age"; "32"] [] []
  = (["--name"; "phil"; "--age"; "32"],
     Return {["name" := VStr "phil"; "age" := VStr "32"]}).
Proof. vm_compute. reflexivity. Qed.

Example repeated_name_accumulates :
  parse camelcase_dashed VariantB ["--name"; "phil"; "--name"; "matt"]
    ["--name"] []
  = (["--name"; "phil"; "--name"; "matt"],
     Return {["name" := VArr ["phil"; "matt"]]}).
Proof. vm_compute. reflexivity. Qed.

Example repeated_name_overwrites :
  parse camelcase_dashed VariantB ["--name"; "phil"; "--name"; "matt"] [] []
  = (["--name"; "phil"; "--name"; "matt"], Return {["name" := VStr "matt"]}).
Proof. vm_compute. reflexivity. Qed.

Example no_command_given :
  parse camelcase_dashed VariantA [] [] ["run"; "build"]
  = ([], Throw {| err_id := "no command given";
                  err_group := Some "cannot parse";
                  err_holes := [] |}).
Proof. reflexivity. Qed.

(** ** Where the specification and the code part *)

(** C2, as stated: with [--help] among the tokens the call succeeds, and the
    declared key [name] is not in the result. *)
Lemma allowMultiple_key_absent_on_help :
  exists result : object,
    (parse camelcase_dashed VariantA ["--help"] ["--name"] []).2
    = Return result
    /\ declared camelcase_dashed ["--name"] "name"
    /\ result !! "name" = None.
Proof.
  exists {["help" := VBool true]}.
  split; [reflexivity|]. split; [by_computation | reflexivity].
Qed.

(** C3, as stated: after a command was taken, the caller's array has lost
    its first element. *)
Lemma caller_array_shifted :
  (parse camelcase_dashed VariantA ["run"; "--force"; "x"] []
     ["run"; "build"]).1 = ["--force"; "x"]
  /\ (parse camelcase_dashed VariantA ["run"; "--force"; "x"] []
        ["run"; "build"]).1 <> ["run"; "--force"; "x"].
Proof. split; [reflexivity | discriminate]. Qed.

(** C4.  The defect, at [run --flag] with commands [run] and [build]: the
    call fails with 'last arg cannot be named' and names [--flag], as it
    should, but under 'here are all the arguments passed' it prints the
    array that [handleCommand] has shifted, [--flag] alone, and not the
    sequence the caller passed. *)
Lemma last_arg_detail_without_command :
  exists e,
    (parse camelcase_dashed VariantA ["run"; "--flag"] [] ["run"; "build"]).2
    = Throw e
    /\ err_id e = "last arg cannot be named"
    /\ err_holes e = [HStr "--flag"; HJson ["--flag"]]
    /\ (HJson ["run"; "--flag"] ∉ err_holes e).
Proof.
  eexists. split; [reflexivity|]. split; [reflexivity|].
  split; [reflexivity | by_computation].
Qed.

(** C5.  The same defect, at [run positional] with commands [run] and
    [build]: the call fails with 'expected to be named' and names
    [positional], as it should, but under 'here are all the arguments
    passed' it prints the shifted array, [positional] alone, and not the
    sequence the caller passed. *)
Lemma expected_detail_without_command :
  exists e,
    (parse camelcase_dashed VariantA ["run"; "positional"] []
       ["run"; "build"]).2 = Throw e
    /\ err_id e = "expected to be named"
    /\ err_holes e = [HStr "positional"; HJson ["positional"]]
    /\ (HJson ["run"; "positional"] ∉ err_holes e).
Proof.
  eexists. split; [reflexivity|]. split; [reflexivity|].
  split; [reflexivity | by_computation].
Qed.

(** C9, as stated: the same array and configuration, parsed twice; the first
    call succeeds and the second one fails. *)
Lemma second_parse_differs :
  parse_twice camelcase_dashed VariantA ["run"; "--force"; "x"] []
    ["run"; "build"]
  = (Return {["_command" := VStr "run"; "force" := VStr "x"]},
     Throw {| err_id := "command given doesn't exist";
              err_group := Some "cannot parse";
              err_holes := [HStr "--force"; HJoin ", " ["run"; "build"]] |}).
Proof. vm_compute. reflexivity. Qed.

(** C7, as stated: the first token is a configured command, yet with
    [--help] further on nothing is stored under [_command] and nothing is
    taken off the sequence. *)
Lemma command_not_taken_on_help :
  ("run" ∈ ["run"; "build"])
  /\ Full.namedSimple camelcase_dashed ["run"; "--force"; "--help"] []
       ["run"; "build"]
     = (["run"; "--force"; "--help"], Return {["help" := VBool true]})
  /\ ({["help" := VBool true]} : object) !! "_command" = None.
Proof. split; [by_computation|]. split; reflexivity. Qed.

(** C10, as stated: in the full variant a value token that reads [--help]
    is looked at, and is not stored under the preceding name. *)
Lemma help_at_value_position_is_not_stored :
  (parse camelcase_dashed VariantA ["--a"; "--help"] [] []).2
  = Return {["help" := VBool true]}
  /\ ({["help" := VBool true]} : object) !! "a" = None
  /\ (parse camelcase_dashed VariantB ["--a"; "--help"] [] []).2
     = Return {["a" := VStr "--help"]}.
Proof. split; [reflexivity|]. split; [reflexivity|]. vm_compute. reflexivity. Qed.

(** * Further properties of the two parsers *)

Section MoreLoopFacts.
Variable camelcase : string -> string.
Variables thE thL : string -> list string -> js_error.

Lemma names_ok_even toks :
  names_ok toks = true -> Nat.even (length toks) = true.
Proof.
  induction toks as [|a|a b toks IH] using pair_ind; intros Hok.
  - reflexivity.
  - discriminate.
  - simpl in Hok. apply andb_true_iff in Hok as [_ Hok]. exact (IH Hok).
Qed.

Lemma loop_not_names_ok allArgs toks r :
  names_ok toks = false ->
  exists e, loop camelcase thE thL allArgs toks r = Throw e.
Proof.
  intros Hbad.
  destruct (loop camelcase thE thL allArgs toks r) as [r'|e] eqn:Hl;
    [|by exists e].
  apply loop_Return_names_ok in Hl. congruence.
Qed.

(** A failure of the loop comes from one of its two helpers, called on a
    token of the sequence. *)
Lemma loop_Throw_inv allArgs toks r e :
  loop camelcase thE thL allArgs toks r = Throw e ->
  exists arg, arg ∈ toks /\ (e = thE arg allArgs \/ e = thL arg allArgs).
Proof.
  revert r. induction toks as [|a|a b toks IH] using pair_ind; intros r.
  - discriminate.
  - simpl. destruct (String.prefix "--" a); simpl; intros [= <-];
      exists a; split; auto; apply list_elem_of_here.
  - simpl. destruct (String.prefix "--" a); simpl.
    + intros Hl. destruct (IH _ Hl) as (arg & Hin & Hor).
      exists arg. split; [|exact Hor]. by do 2 apply list_elem_of_further.
    + intros [= <-]. exists a. split; auto. apply list_elem_of_here.
Qed.
End MoreLoopFacts.

(** Whether the loop fails, and how, depends neither on the result it
    started from nor on the converter. *)
Lemma loop_Throw_indep cc1 cc2 thE thL allArgs toks r1 r2 e :
  loop cc1 thE thL allArgs toks r1 = Throw e ->
  loop cc2 thE thL allArgs toks r2 = Throw e.
Proof.
  revert r1 r2. induction toks as [|a|a b toks IH] using pair_ind;
    intros r1 r2.
  - discriminate.
  - simpl. destruct (String.prefix "--" a); simpl; trivial.
  - simpl. destruct (String.prefix "--" a); simpl; [apply IH | trivial].
Qed.

Section Outcomes.
Variable camelcase : string -> string.

Lemma parse_short_circuit_returns allArgs allowMultiple commands :
  short_circuits VariantA allArgs = true ->
  exists r,
    (parse camelcase VariantA allArgs allowMultiple commands).2 = Return r.
Proof.
  intros H. cbn [parse]. unfold Full.namedSimple.
  destruct (bool_decide ("--help" ∈ allArgs)) eqn:Hh; [by eexists|].
  destruct (bool_decide ("--version" ∈ allArgs)) eqn:Hv; [by eexists|].
  unfold short_circuits in H. rewrite Hh, Hv in H. discriminate.
Qed.

(** X1.  A call returns a result exactly when it short-circuits, or when its
    command step passes and the tokens the loop walks are (name, value)
    pairs whose names all begin with [--]; every other call fails. *)
Theorem parse_returns_iff v allArgs allowMultiple commands :
  (exists r, (parse camelcase v allArgs allowMultiple commands).2 = Return r)
  <-> parses v allArgs commands = true.
Proof.
  unfold parses. destruct (short_circuits v allArgs) eqn:Hsc.
  - destruct v; [|discriminate]. split; [reflexivity|]. intros _.
    by apply parse_short_circuit_returns.
  - cbn [orb]. destruct (command_ok v allArgs commands) eqn:Hok; cbn [andb].
    + rewrite parse_main by assumption. cbn [snd]. split.
      * intros [r Hr]. by apply loop_Return_names_ok in Hr.
      * intros Hnames. eexists. by apply loop_names_ok.
    + destruct (parse_command_fails camelcase v allArgs allowMultiple
                  commands Hsc Hok) as [e ->].
      split; [intros [r Hr]; discriminate | discriminate].
Qed.

(** X2.  Without short-circuit, a call whose loop has an odd number of
    tokens to walk always fails. *)
Theorem odd_token_count_fails v allArgs allowMultiple commands :
  short_circuits v allArgs = false ->
  Nat.odd (length (named_part v allArgs commands)) = true ->
  exists e, (parse camelcase v allArgs allowMultiple commands).2 = Throw e.
Proof.
  intros Hsc Hodd. destruct (command_ok v allArgs commands) eqn:Hok.
  - rewrite parse_main by assumption. cbn [snd].
    apply loop_not_names_ok.
    destruct (names_ok (named_part v allArgs commands)) eqn:Hn; [|reflexivity].
    apply names_ok_even in Hn. unfold Nat.odd in Hodd. rewrite Hn in Hodd.
    discriminate.
  - destruct (parse_command_fails camelcase v allArgs allowMultiple
                commands Hsc Hok) as [e ->].
    by exists e.
Qed.

(** X3.  Every failure of the full parser carries the group 'cannot parse'
    and one of its four ids; every failure of the reduced parser carries no
    group and one of the two loop ids; outside command mode only the two
    loop ids occur. *)
Theorem failure_taxonomy v allArgs allowMultiple commands e :
  (parse camelcase v allArgs allowMultiple commands).2 = Throw e ->
  err_group e = match v with
                | VariantA => Some "cannot parse"
                | VariantB => None
                end
  /\ err_id e ∈ (if command_mode v commands
                 then ["no command given"; "command given doesn't exist";
                       "expected to be named"; "last arg cannot be named"]
                 else ["expected to be named"; "last arg cannot be named"]).
Proof.
  intros Hthrow.
  assert (Hloop : forall all toks r,
    loop camelcase (expected_to_be_named_error v) (last_arg_error v)
      all toks r = Throw e ->
    err_group e = match v with
                  | VariantA => Some "cannot parse"
                  | VariantB => None
                  end
    /\ err_id e ∈ ["expected to be named"; "last arg cannot be named"]).
  { intros all toks r Hl.
    apply loop_Throw_inv in Hl as (arg & _ & [-> | ->]);
      destruct v; (split; [reflexivity|]); cbn;
      repeat first [apply list_elem_of_here | apply list_elem_of_further]. }
  destruct (short_circuits v allArgs) eqn:Hsc.
  { destruct v; [|discriminate].
    destruct (parse_short_circuit_returns allArgs allowMultiple commands Hsc)
      as [r Hr].
    rewrite Hr in Hthrow. discriminate. }
  destruct (command_ok v allArgs commands) eqn:Hok.
  - rewrite parse_main in Hthrow by assumption. cbn [snd] in Hthrow.
    destruct (Hloop _ _ _ Hthrow) as [Hg Hid]. split; [exact Hg|].
    destruct (command_mode v commands); [|exact Hid].
    by do 2 apply list_elem_of_further.
  - destruct v; [|discriminate]. apply short_circuits_A in Hsc as [Hh Hv].
    cbn [parse] in Hthrow.
    rewrite Full_no_short_circuit in Hthrow by assumption.
    unfold command_ok in Hok.
    destruct commands as [|c commands]; [discriminate|].
    cbn [command_mode] in *. destruct allArgs as [|a allArgs].
    + cbn in Hthrow. injection Hthrow as <-. split; [reflexivity|].
      apply list_elem_of_here.
    + cbn [Full.handleCommand] in Hthrow. rewrite Hok in Hthrow.
      cbn in Hthrow. injection Hthrow as <-. split; [reflexivity|].
      apply list_elem_of_further, list_elem_of_here.
Qed.

(** X11.  Whether a call fails, and with which error, depends on the tokens
    and the commands only: neither the converter nor the set of
    multi-valued names changes it. *)
Theorem failure_is_syntactic camelcase' v allArgs allowMultiple allowMultiple'
    commands e :
  (parse camelcase v allArgs allowMultiple commands).2 = Throw e ->
  (parse camelcase' v allArgs allowMultiple' commands).2 = Throw e.
Proof.
  intros Hthrow. destruct (short_circuits v allArgs) eqn:Hsc.
  { destruct v; [|discriminate].
    destruct (parse_short_circuit_returns allArgs allowMultiple commands Hsc)
      as [r Hr].
    rewrite Hr in Hthrow. discriminate. }
  destruct (command_ok v allArgs commands) eqn:Hok.
  - rewrite parse_main in * by assumption. cbn [snd] in *.
    eapply loop_Throw_indep. exact Hthrow.
  - destruct v; [|discriminate]. apply short_circuits_A in Hsc as [Hh Hv].
    cbn [parse] in *. rewrite Full_no_short_circuit in * by assumption.
    unfold command_ok in Hok.
    destruct commands as [|c commands]; [discriminate|].
    cbn [command_mode] in Hok. destruct allArgs as [|a allArgs].
    + exact Hthrow.
    + cbn [Full.handleCommand] in *. rewrite Hok in *. exact Hthrow.
Qed.
End Outcomes.

(** ** The two source files against each other *)

Section Variants.
Variable camelcase : string -> string.

Lemma loop_agree_up_to_group allArgs toks r :
  agree_up_to_group
    (loop camelcase Full.throwExpectedToBeNamed
       Full.throwLastArgCannotBeNamed allArgs toks r)
    (loop camelcase Reduced.throwExpectedToBeNamed
       Reduced.throwLastArgCannotBeNamed allArgs toks r).
Proof.
  revert r. induction toks as [|a|a b toks IH] using pair_ind; intros r.
  - reflexivity.
  - simpl. destruct (String.prefix "--" a); simpl; by split.
  - simpl. destruct (String.prefix "--" a); simpl; [apply IH | by split].
Qed.

(** X4.  With no command set and neither [--help] nor [--version] among
    the tokens, the full parser and the reduced parser succeed on the same
    token sequences with the same result object, and fail on the same ones
    with the same id, naming the same token and printing the same sequence;
    neither touches the caller's array.  (The failures are not equal: the
    full parser adds a group, and the two files word their messages
    differently.) *)
Theorem variants_agree allArgs allowMultiple :
  short_circuits VariantA allArgs = false ->
  agree_up_to_group
    (parse camelcase VariantA allArgs allowMultiple []).2
    (parse camelcase VariantB allArgs allowMultiple []).2
  /\ (parse camelcase VariantA allArgs allowMultiple []).1
     = (parse camelcase VariantB allArgs allowMultiple []).1.
Proof.
  intros Hsc. rewrite (parse_main camelcase VariantA) by (assumption || reflexivity).
  split; [|reflexivity]. apply loop_agree_up_to_group.
Qed.

Lemma loop_agree_off key thE thL allArgs toks r1 r2 :
  (forall k, k <> key -> r1 !! k = r2 !! k) ->
  agree_off key (loop camelcase thE thL allArgs toks r1)
                (loop camelcase thE thL allArgs toks r2).
Proof.
  revert r1 r2. induction toks as [|a|a b toks IH] using pair_ind;
    intros r1 r2 Hagree.
  - exact Hagree.
  - simpl. destruct (String.prefix "--" a); reflexivity.
  - simpl. destruct (String.prefix "--" a); simpl; [|reflexivity].
    apply IH. intros k Hk. rewrite !assign_lookup, (Hagree k Hk). reflexivity.
Qed.

(** X5.  With neither [--help] nor [--version] among the tokens, taking a
    command changes nothing else: the full parser on [theCommand :: rest]
    with [theCommand] among the commands fails exactly as it does on [rest]
    with no command set, and when both succeed the two results hold the
    same under every key but [_command], which the first one then always
    has. *)
Theorem command_changes_only_its_key theCommand rest allowMultiple commands :
  "--help" ∉ theCommand :: rest ->
  "--version" ∉ theCommand :: rest ->
  theCommand ∈ commands ->
  let with_command :=
    (Full.namedSimple camelcase (theCommand :: rest) allowMultiple commands).2 in
  let without :=
    (Full.namedSimple camelcase rest allowMultiple []).2 in
  agree_off "_command" with_command without
  /\ (forall result,
        with_command = Return result -> is_Some (result !! "_command")).
Proof.
  intros Hh Hv Hin with_command without.
  assert (Hh' : "--help" ∉ rest) by (intros H; apply Hh; by right).
  assert (Hv' : "--version" ∉ rest) by (intros H; apply Hv; by right).
  unfold with_command, without.
  rewrite !Full_no_short_circuit by assumption.
  destruct commands as [|c cs]; [by apply elem_of_nil in Hin|].
  cbn [Full.handleCommand]. rewrite (bool_decide_eq_true_2 _ Hin).
  cbn [negb snd]. split.
  - apply loop_agree_off. intros k Hk. by rewrite lookup_insert_ne.
  - intros result Hres.
    pose proof (loop_Return_names_ok _ _ _ _ _ _ _ Hres) as Hok.
    rewrite loop_names_ok in Hres by assumption. injection Hres as <-.
    rewrite assign_all_lookup, lookup_insert_eq.
    destruct (last _); eauto.
Qed.
End Variants.

(** ** What a result holds *)

Section Contents.
Variable camelcase : string -> string.

Lemma dom_assign (r : object) key val : dom (assign r key val) = {[key]} ∪ dom r.
Proof.
  unfold assign. destruct (r !! key) as [[?|?|?]|]; apply dom_insert_L.
Qed.

Lemma dom_assign_all toks (r : object) :
  dom (assign_all camelcase r toks)
  = list_to_set (camelcase <$> names_of toks) ∪ dom r.
Proof.
  revert r. induction toks as [|a|a b toks IH] using pair_ind; intros r.
  - cbn. by rewrite (left_id_L ∅ (∪)).
  - cbn. by rewrite (left_id_L ∅ (∪)).
  - cbn [assign_all names_of]. rewrite IH, dom_assign, fmap_cons.
    rewrite list_to_set_cons.
    apply set_eq. intros k. rewrite !elem_of_union. tauto.
Qed.

Lemma dom_initResult allowMultiple :
  dom (initResult camelcase allowMultiple)
  = list_to_set (camelcase <$> allowMultiple).
Proof.
  apply set_eq. intros k.
  rewrite elem_of_dom, initResult_lookup, elem_of_list_to_set.
  unfold declared. destruct (decide _) as [H|H]; split; intros H'.
  - exact H.
  - by eexists.
  - by destruct H'.
  - contradiction.
Qed.

Lemma values_for_elem_of key toks x :
  x ∈ values_for camelcase key toks -> x ∈ toks.
Proof.
  induction toks as [|a|a b toks IH] using pair_ind; cbn [values_for].
  - intros H. by apply elem_of_nil in H.
  - intros H. by apply elem_of_nil in H.
  - destruct (decide (camelcase a = key)).
    + intros [->|H]%elem_of_cons.
      * apply list_elem_of_further, list_elem_of_here.
      * by do 2 apply list_elem_of_further; apply IH.
    + intros H. by do 2 apply list_elem_of_further; apply IH.
Qed.

Lemma named_part_elem_of v allArgs commands x :
  x ∈ named_part v allArgs commands -> x ∈ allArgs.
Proof.
  unfold named_part. destruct (command_mode v commands); [|trivial].
  destruct allArgs; [trivial|]. cbn [tail]. apply list_elem_of_further.
Qed.

(** A successful call past the short-circuit is the pairs applied in turn
    to the starting result. *)
Lemma parse_Return_assign_all v allArgs allowMultiple commands r :
  short_circuits v allArgs = false ->
  (parse camelcase v allArgs allowMultiple commands).2 = Return r ->
  command_ok v allArgs commands = true
  /\ names_ok (named_part v allArgs commands) = true
  /\ r = assign_all camelcase
           (start_result camelcase v allArgs allowMultiple commands)
           (named_part v allArgs commands).
Proof.
  intros Hsc Hret.
  destruct (command_ok v allArgs commands) eqn:Hok; cycle 1.
  { destruct (parse_command_fails camelcase v allArgs allowMultiple
                commands Hsc Hok) as [e He].
    rewrite He in Hret. discriminate. }
  rewrite parse_main in Hret by assumption. cbn [snd] in Hret.
  pose proof (loop_Return_names_ok _ _ _ _ _ _ _ Hret) as Hnames.
  rewrite loop_names_ok in Hret by assumption. injection Hret as <-.
  auto.
Qed.

(** X6.  The keys of a result that is not a short-circuit are exactly the
    camel-cased multi-valued names, the camel-cased names among the tokens,
    and [_command] in command mode: nothing else is ever set. *)
Theorem result_keys v allArgs allowMultiple commands r :
  short_circuits v allArgs = false ->
  (parse camelcase v allArgs allowMultiple commands).2 = Return r ->
  dom r
  = list_to_set (camelcase <$> allowMultiple)
    ∪ list_to_set (camelcase <$> names_of (named_part v allArgs commands))
    ∪ (if command_mode v commands then {["_command"]} else ∅).
Proof.
  intros Hsc Hret.
  destruct (parse_Return_assign_all _ _ _ _ _ Hsc Hret) as (Hok & _ & ->).
  rewrite dom_assign_all. unfold start_result, command_ok in *.
  destruct (command_mode v commands).
  - destruct allArgs as [|c allArgs]; [discriminate|].
    rewrite dom_insert_L, dom_initResult.
    apply set_eq. intros k. rewrite !elem_of_union. tauto.
  - rewrite dom_initResult.
    apply set_eq. intros k. rewrite !elem_of_union, elem_of_empty. tauto.
Qed.

(** X7.  A result that is not a short-circuit holds no boolean, and every
    string in it, scalar or array element, is one of the caller's tokens
    as it was passed. *)
Theorem values_are_tokens v allArgs allowMultiple commands r key :
  short_circuits v allArgs = false ->
  (parse camelcase v allArgs allowMultiple commands).2 = Return r ->
  match r !! key with
  | Some (VStr s) => s ∈ allArgs
  | Some (VArr xs) => forall x, x ∈ xs -> x ∈ allArgs
  | Some (VBool _) => False
  | None => True
  end.
Proof.
  intros Hsc Hret.
  destruct (parse_Return_assign_all _ _ _ _ _ Hsc Hret) as (Hok & _ & ->).
  rewrite assign_all_lookup, start_result_lookup by assumption.
  assert (Hlast : forall s,
    last (values_for camelcase key (named_part v allArgs commands)) = Some s ->
    s ∈ allArgs).
  { intros s Hs. apply last_Some_elem_of in Hs.
    eapply named_part_elem_of, values_for_elem_of, Hs. }
  destruct (command_mode v commands && bool_decide (key = "_command")).
  - destruct allArgs as [|c allArgs]; cbn.
    + destruct (last _) as [s|] eqn:Hs; [by apply Hlast | trivial].
    + destruct (last _) as [s|] eqn:Hs; [by apply Hlast|].
      apply list_elem_of_here.
  - destruct (decide (declared camelcase allowMultiple key)).
    + intros x Hx. rewrite app_nil_l in Hx.
      eapply named_part_elem_of, values_for_elem_of, Hx.
    + destruct (last _) as [s|] eqn:Hs; [by apply Hlast | trivial].
Qed.

(** X8.  Only the set of camel-cased multi-valued names matters: two lists
    of names that declare the same keys, whatever their order, repetitions
    or spelling, give the same outcome on every token sequence. *)
Theorem allowMultiple_as_a_set v allArgs allowMultiple allowMultiple' commands :
  (forall key, declared camelcase allowMultiple key
               <-> declared camelcase allowMultiple' key) ->
  parse camelcase v allArgs allowMultiple commands
  = parse camelcase v allArgs allowMultiple' commands.
Proof.
  intros Hsame.
  assert (E : initResult camelcase allowMultiple
              = initResult camelcase allowMultiple').
  { apply map_eq. intros k. rewrite !initResult_lookup.
    destruct (decide (declared camelcase allowMultiple k)) as [H|H];
      destruct (decide (declared camelcase allowMultiple' k)) as [H'|H'];
      try reflexivity; exfalso; apply Hsame in H || apply Hsame in H';
      contradiction. }
  destruct v; cbn [parse]; unfold Full.namedSimple, Reduced.namedSimple;
    rewrite E; reflexivity.
Qed.

(** X10.  Parsing is incremental: once a sequence has parsed to a result,
    parsing it with more tokens after it is the loop run over those tokens
    from that result. *)
Theorem parse_append v parsed more allowMultiple r :
  short_circuits v (parsed ++ more) = false ->
  (parse camelcase v parsed allowMultiple []).2 = Return r ->
  (parse camelcase v (parsed ++ more) allowMultiple []).2
  = loop camelcase (expected_to_be_named_error v) (last_arg_error v)
      (parsed ++ more) more r.
Proof.
  intros Hsc Hret.
  assert (Hsc' : short_circuits v parsed = false).
  { destruct v; [|reflexivity]. apply short_circuits_A in Hsc as [Hh Hv].
    unfold short_circuits. apply orb_false_iff.
    split; apply bool_decide_eq_false_2; intros H;
      [apply Hh | apply Hv]; apply elem_of_app; by left. }
  assert (Hmode : command_mode v [] = false) by (by destruct v).
  destruct (parse_Return_assign_all _ _ _ _ _ Hsc' Hret) as (_ & Hnames & ->).
  rewrite parse_main by (assumption || by destruct v). cbn [snd].
  unfold named_part, start_result in *. rewrite Hmode in *.
  by apply loop_app.
Qed.
End Contents.

(** ** The cursor loop *)

Section Cursor.
Variable camelcase : string -> string.
Variables thE thL : string -> list string -> js_error.

Lemma for_loop_drop_pairs fuel allArgs i r :
  length allArgs - i < 2 * fuel ->
  for_loop camelcase thE thL fuel allArgs i r
  = Some (loop camelcase thE thL allArgs (drop i allArgs) r).
Proof.
  revert i r. induction fuel as [|fuel IH]; intros i r Hfuel; [lia|].
  cbn [for_loop]. destruct (allArgs !! i) as [arg|] eqn:Hi.
  - pose proof (lookup_lt_Some _ _ _ Hi) as Hlt.
    rewrite (drop_S _ _ _ Hi). cbn [loop].
    destruct (negb (String.prefix "--" arg)); [reflexivity|].
    destruct (decide (i = length allArgs - 1)) as [Hlast|Hlast].
    + rewrite drop_ge by lia. reflexivity.
    + destruct (allArgs !! (i + 1)) as [val|] eqn:Hv.
      * replace (S i) with (i + 1) by lia. rewrite (drop_S _ _ _ Hv).
        rewrite IH by lia. do 3 f_equal. lia.
      * apply lookup_ge_None in Hv. lia.
  - apply lookup_ge_None in Hi. rewrite drop_ge by lia. reflexivity.
Qed.

(** X9.  The [for] loop over [n] tokens is done after at most [n / 2 + 1]
    tests of its condition; whenever it reads the value at [i + 1] that
    index is inside the array; and what it computes is [loop]. *)
Theorem for_loop_within_pairs fuel allArgs r :
  length allArgs < 2 * fuel ->
  for_loop camelcase thE thL fuel allArgs 0 r
  = Some (loop camelcase thE thL allArgs allArgs r).
Proof. intros Hfuel. rewrite for_loop_drop_pairs by lia. reflexivity. Qed.
End Cursor.

(** ** What a failure reports *)

Section Reports.
Variable camelcase : string -> string.

Lemma loop_error_holes v arg allArgs e :
  e = expected_to_be_named_error v arg allArgs
  \/ e = last_arg_error v arg allArgs ->
  err_holes e = [HStr arg; HJson allArgs].
Proof. intros [-> | ->]; by destruct v. Qed.

(** X12.  Whatever a failure shows comes from the call: the token it names
    is one of the caller's tokens, and the sequence it prints is the
    caller's array as the call leaves it. *)
Theorem failure_reports_the_call v allArgs allowMultiple commands e :
  (parse camelcase v allArgs allowMultiple commands).2 = Throw e ->
  (forall s, HStr s ∈ err_holes e -> s ∈ allArgs)
  /\ (forall xs, HJson xs ∈ err_holes e ->
       xs = (parse camelcase v allArgs allowMultiple commands).1).
Proof.
  intros Hthrow. destruct (short_circuits v allArgs) eqn:Hsc.
  { destruct v; [|discriminate].
    destruct (parse_short_circuit_returns camelcase allArgs allowMultiple
                commands Hsc) as [r Hr].
    rewrite Hr in Hthrow. discriminate. }
  destruct (command_ok v allArgs commands) eqn:Hok.
  - rewrite parse_main in * by assumption. cbn [fst snd] in *.
    apply loop_Throw_inv in Hthrow as (arg & Hin & Hor).
    rewrite (loop_error_holes _ _ _ _ Hor). split.
    + intros s Hs. rewrite !elem_of_cons, elem_of_nil in Hs.
      destruct Hs as [[= ->] | [[=] | []]].
      eapply named_part_elem_of, Hin.
    + intros xs Hxs. rewrite !elem_of_cons, elem_of_nil in Hxs.
      destruct Hxs as [[=] | [[= ->] | []]]. reflexivity.
  - destruct v; [|discriminate]. apply short_circuits_A in Hsc as [Hh Hv].
    cbn [parse] in *. rewrite Full_no_short_circuit in * by assumption.
    unfold command_ok in Hok.
    destruct commands as [|c commands]; [discriminate|].
    cbn [command_mode] in Hok. destruct allArgs as [|a allArgs].
    + cbn in Hthrow. injection Hthrow as <-. cbn.
      split; intros ? H; by apply elem_of_nil in H.
    + cbn [Full.handleCommand] in *. rewrite Hok in *. cbn in Hthrow.
      injection Hthrow as <-. cbn. split.
      * intros s Hs. rewrite !elem_of_cons, elem_of_nil in Hs.
        destruct Hs as [[= ->] | [[=] | []]]. apply list_elem_of_here.
      * intros xs Hxs. rewrite !elem_of_cons, elem_of_nil in Hxs.
        destruct Hxs as [[=] | [[=] | []]].
Qed.
End Reports.

(** ** Worked instances *)

Lemma parse_returns_iff_witness :
  parses VariantA ["run"; "--force"; "x"] ["run"; "build"] = true
  /\ exists r,
       (parse camelcase_dashed VariantA ["run"; "--force"; "x"] []
          ["run"; "build"]).2 = Return r.
Proof.
  refine (conj eq_refl _).
  exact (proj2 (parse_returns_iff camelcase_dashed VariantA
                  ["run"; "--force"; "x"] [] ["run"; "build"]) eq_refl).
Defined.

Lemma odd_token_count_fails_witness :
  short_circuits VariantB ["--a"; "b"; "--c"] = false
  /\ Nat.odd (length (named_part VariantB ["--a"; "b"; "--c"] [])) = true
  /\ exists e,
       (parse camelcase_dashed VariantB ["--a"; "b"; "--c"] [] []).2 = Throw e.
Proof.
  refine (conj eq_refl (conj eq_refl _)).
  exact (odd_token_count_fails camelcase_dashed VariantB ["--a"; "b"; "--c"]
           [] [] eq_refl eq_refl).
Defined.

Lemma failure_taxonomy_witness :
  let e := {| err_id := "command given doesn't exist";
              err_group := Some "cannot parse";
              err_holes := [HStr "deploy"; HJoin ", " ["run"; "build"]] |} in
  (parse camelcase_dashed VariantA ["deploy"] [] ["run"; "build"]).2 = Throw e
  /\ err_group e = Some "cannot parse"
  /\ err_id e ∈ ["no command given"; "command given doesn't exist";
                 "expected to be named"; "last arg cannot be named"].
Proof.
  intros e.
  assert (H : (parse camelcase_dashed VariantA ["deploy"] []
                 ["run"; "build"]).2 = Throw e) by reflexivity.
  refine (conj H _).
  exact (failure_taxonomy camelcase_dashed VariantA ["deploy"] []
           ["run"; "build"] e H).
Defined.

Lemma failure_is_syntactic_witness :
  let e := {| err_id := "expected to be named";
              err_group := None;
              err_holes := [HStr "positional"; HJson ["--a"; "b"; "positional"]] |} in
  (parse camelcase_dashed VariantB ["--a"; "b"; "positional"] [] []).2 = Throw e
  /\ (parse (fun s => s) VariantB ["--a"; "b"; "positional"] ["--a"] []).2
     = Throw e.
Proof.
  intros e.
  assert (H : (parse camelcase_dashed VariantB ["--a"; "b"; "positional"]
                 [] []).2 = Throw e) by reflexivity.
  refine (conj H _).
  exact (failure_is_syntactic camelcase_dashed (fun s => s) VariantB
           ["--a"; "b"; "positional"] [] ["--a"] [] e H).
Defined.

Lemma variants_agree_witness :
  short_circuits VariantA ["--name"; "phil"; "--flag"] = false
  /\ agree_up_to_group
       (parse camelcase_dashed VariantA ["--name"; "phil"; "--flag"]
          ["--name"] []).2
       (parse camelcase_dashed VariantB ["--name"; "phil"; "--flag"]
          ["--name"] []).2.
Proof.
  refine (conj eq_refl _).
  exact (proj1 (variants_agree camelcase_dashed ["--name"; "phil"; "--flag"]
                  ["--name"] eq_refl)).
Defined.

Lemma command_changes_only_its_key_witness :
  ("--help" ∉ ["run"; "--force"; "x"])
  /\ ("--version" ∉ ["run"; "--force"; "x"])
  /\ ("run" ∈ ["run"; "build"])
  /\ agree_off "_command"
       (Full.namedSimple camelcase_dashed ["run"; "--force"; "x"] ["--tag"]
          ["run"; "build"]).2
       (Full.namedSimple camelcase_dashed ["--force"; "x"] ["--tag"] []).2.
Proof.
  assert (Hh : "--help" ∉ ["run"; "--force"; "x"]) by by_computation.
  assert (Hv : "--version" ∉ ["run"; "--force"; "x"]) by by_computation.
  assert (Hin : "run" ∈ ["run"; "build"]) by by_computation.
  refine (conj Hh (conj Hv (conj Hin _))).
  exact (proj1 (command_changes_only_its_key camelcase_dashed "run"
                  ["--force"; "x"] ["--tag"] ["run"; "build"] Hh Hv Hin)).
Defined.

Lemma result_keys_witness :
  let allArgs := ["run"; "--first-name"; "phil"; "--age"; "32"] in
  let r : object :=
    {["_command" := VStr "run"; "firstName" := VStr "phil";
      "age" := VStr "32"; "tag" := VArr []]} in
  short_circuits VariantA allArgs = false
  /\ (parse camelcase_dashed VariantA allArgs ["--tag"] ["run"]).2 = Return r
  /\ dom r
     = list_to_set (camelcase_dashed <$> ["--tag"])
       ∪ list_to_set
           (camelcase_dashed
              <$> names_of (named_part VariantA allArgs ["run"]))
       ∪ {["_command"]}.
Proof.
  intros allArgs r.
  assert (Hret : (parse camelcase_dashed VariantA allArgs ["--tag"]
                    ["run"]).2 = Return r) by (vm_compute; reflexivity).
  refine (conj eq_refl (conj Hret _)).
  exact (result_keys camelcase_dashed VariantA allArgs ["--tag"] ["run"] r
           eq_refl Hret).
Defined.

Lemma values_are_tokens_witness :
  let allArgs := ["--name"; "phil"; "--name"; "matt"] in
  let r : object := {["name" := VArr ["phil"; "matt"]]} in
  short_circuits VariantB allArgs = false
  /\ (parse camelcase_dashed VariantB allArgs ["--name"] []).2 = Return r
  /\ match r !! "name" with
     | Some (VStr s) => s ∈ allArgs
     | Some (VArr xs) => forall x, x ∈ xs -> x ∈ allArgs
     | Some (VBool _) => False
     | None => True
     end.
Proof.
  intros allArgs r.
  assert (Hret : (parse camelcase_dashed VariantB allArgs ["--name"]
                    []).2 = Return r) by (vm_compute; reflexivity).
  refine (conj eq_refl (conj Hret _)).
  exact (values_are_tokens camelcase_dashed VariantB allArgs ["--name"] [] r
           "name" eq_refl Hret).
Defined.

Lemma allowMultiple_as_a_set_witness :
  (forall key,
     declared camelcase_dashed ["--name"; "--tag"; "--name"] key
     <-> declared camelcase_dashed ["--tag"; "--name"] key)
  /\ parse camelcase_dashed VariantB ["--name"; "phil"]
       ["--name"; "--tag"; "--name"] []
     = parse camelcase_dashed VariantB ["--name"; "phil"]
         ["--tag"; "--name"] [].
Proof.
  assert (H : forall key,
            declared camelcase_dashed ["--name"; "--tag"; "--name"] key
            <-> declared camelcase_dashed ["--tag"; "--name"] key).
  { intros key. unfold declared. cbn [fmap list_fmap].
    rewrite !elem_of_cons, elem_of_nil. tauto. }
  refine (conj H _).
  exact (allowMultiple_as_a_set camelcase_dashed VariantB ["--name"; "phil"]
           ["--name"; "--tag"; "--name"] ["--tag"; "--name"] [] H).
Defined.

Lemma parse_append_witness :
  short_circuits VariantA (["--a"; "b"] ++ ["--c"; "d"]) = false
  /\ (parse camelcase_dashed VariantA ["--a"; "b"] [] []).2
     = Return {["a" := VStr "b"]}
  /\ (parse camelcase_dashed VariantA (["--a"; "b"] ++ ["--c"; "d"]) [] []).2
     = loop camelcase_dashed Full.throwExpectedToBeNamed
         Full.throwLastArgCannotBeNamed (["--a"; "b"] ++ ["--c"; "d"])
         ["--c"; "d"] {["a" := VStr "b"]}.
Proof.
  assert (Hret : (parse camelcase_dashed VariantA ["--a"; "b"] [] []).2
                 = Return {["a" := VStr "b"]}) by (vm_compute; reflexivity).
  refine (conj eq_refl (conj Hret _)).
  exact (parse_append camelcase_dashed VariantA ["--a"; "b"] ["--c"; "d"] []
           _ eq_refl Hret).
Defined.

Lemma for_loop_within_pairs_witness :
  length ["--a"; "b"; "--c"; "d"] < 2 * 3
  /\ for_loop camelcase_dashed Reduced.throwExpectedToBeNamed
       Reduced.throwLastArgCannotBeNamed 3 ["--a"; "b"; "--c"; "d"] 0 ∅
     = Some (loop camelcase_dashed Reduced.throwExpectedToBeNamed
               Reduced.throwLastArgCannotBeNamed ["--a"; "b"; "--c"; "d"]
               ["--a"; "b"; "--c"; "d"] ∅).
Proof.
  assert (H : length ["--a"; "b"; "--c"; "d"] < 2 * 3) by (cbn; lia).
  refine (conj H _).
  exact (for_loop_within_pairs camelcase_dashed
           Reduced.throwExpectedToBeNamed Reduced.throwLastArgCannotBeNamed
           3 ["--a"; "b"; "--c"; "d"] ∅ H).
Defined.

Lemma failure_reports_the_call_witness :
  let e := {| err_id := "last arg cannot be named";
              err_group := Some "cannot parse";
              err_holes := [HStr "--flag"; HJson ["--flag"]] |} in
  (parse camelcase_dashed VariantA ["run"; "--flag"] [] ["run"]).2 = Throw e
  /\ ("--flag" ∈ ["run"; "--flag"])
  /\ ["--flag"]
     = (parse camelcase_dashed VariantA ["run"; "--flag"] [] ["run"]).1.
Proof.
  intros e.
  assert (H : (parse camelcase_dashed VariantA ["run"; "--flag"] []
                 ["run"]).2 = Throw e) by reflexivity.
  pose proof (failure_reports_the_call camelcase_dashed VariantA
                ["run"; "--flag"] [] ["run"] e H) as [Hstr Hjson].
  refine (conj H (conj (Hstr "--flag" _) (Hjson ["--flag"] _))).
  - apply list_elem_of_here.
  - apply list_elem_of_further, list_elem_of_here.
Defined.
